(** * MuGo [sgf_wrapper.py]: replaying the main branch of an SGF game record

    A shallow embedding of [sgf_wrapper.py].  The module turns a parsed SGF
    game tree into a sequence of (position, next move, result) records.

    - SGF nodes are a record holding the property dictionary
      ([gmap string (list string)], as the [sgf] library produces it) and the
      [next] child of the main line.
    - Python exceptions are explicit: every function that can raise returns a
      [result], and the generator [get_main_branch] is the list of records it
      yields together with the exception (if any) that ends it.
    - The [go] and [utils] modules, and the builtins [int] and [float], are
      collaborators of this file: they are the fields of the class [Go], and
      every statement in the sections below holds for all of them. *)

From Stdlib Require Import ZArith QArith Ascii String.
From stdpp Require Import gmap strings list.

Local Open Scope Z_scope.
Local Open Scope string_scope.

(** ** Python exceptions and fallible computations *)

Inductive Exn : Set :=
| KeyError | IndexError | AttributeError | TypeError | ValueError | AssertionError.

Inductive result (A : Type) : Type :=
| Ok (a : A)
| Raise (e : Exn).
Arguments Ok {A} a.
Arguments Raise {A} e.

#[global] Instance result_ret : MRet result := fun A a => Ok a.

#[global] Instance result_bind : MBind result := fun A B k m =>
  match m with
  | Ok a => k a
  | Raise e => Raise e
  end.

(** ** The game tree of the [sgf] library *)

#[local] Set Warnings "-register-all".

Inductive Node : Type :=
  mkNode { properties : gmap string (list string); next : option Node }.

(** The recorded colours, ['B'] and ['W']. *)
Inductive Color : Set := Black | White.

(** [key in props] *)
Definition has_key (props : gmap string (list string)) (key : string) : bool :=
  bool_decide (is_Some (props !! key)).

(** [props[key][0]]: a missing key is a [KeyError], an empty value list an
    [IndexError]. *)
Definition item0 (props : gmap string (list string)) (key : string) : result string :=
  match props !! key with
  | None => Raise KeyError
  | Some [] => Raise IndexError
  | Some (v :: _) => Ok v
  end.

(** [v or None] on a string: the empty string is falsy. *)
Definition or_None (v : string) : option string :=
  if decide (v = "") then None else Some v.

(** ** [sgf_prop] *)

(** What [sgf_prop] can return: [None], one raw value, or the list itself. *)
Inductive PropValue : Type :=
| PNone
| PSingle (s : string)
| PList (l : list string).

Definition sgf_prop (value_list : option (list string)) : PropValue :=
  match value_list with
  | None => PNone
  | Some l =>
      match l with
      | [x] => PSingle x          (* len(value_list) == 1 *)
      | _ => PList l
      end
  end.

(** The value of [player1turn] that matches a recorded colour: Black is
    player 1. *)
Definition turn_of (c : Color) : bool :=
  match c with Black => true | White => false end.

(** ** [get_next_move] *)

Definition get_next_move (node : Node) : result (option Color * option string) :=
  match next node with
  | None => Ok (None, None)
  | Some nx =>
      let props := properties nx in
      if has_key props "W"
      then v ← item0 props "W" ; Ok (Some White, or_None v)
      else v ← item0 props "B" ; Ok (Some Black, or_None v)
  end.

(** The main line from [node] on: the nodes that [current_node] runs through
    when no position is refused, and their number. *)
Fixpoint main_line (node : Node) : list Node :=
  node :: match next node with
          | Some nx => main_line nx
          | None => []
          end.

(** ** The collaborators: [go], [utils.parse_sgf_coords], [int], [float] *)

(** [go.Position], a named tuple.  [Extra] stands for the fields that this
    file never reads or writes. *)
Record Position_ (Board Groups Komi Extra : Type) : Type := mkPosition {
  board : Board;
  groups : Groups;
  komi : Komi;
  player1turn : bool;
  extra : Extra;
}.
Arguments mkPosition {Board Groups Komi Extra}.
Arguments board {Board Groups Komi Extra}.
Arguments groups {Board Groups Komi Extra}.
Arguments komi {Board Groups Komi Extra}.
Arguments player1turn {Board Groups Komi Extra}.
Arguments extra {Board Groups Komi Extra}.

(** [Coord] is what [parse_sgf_coords] returns (a point, or [None] for a
    pass), [Board] and [Groups] are the board and the group data of [go], and
    [Komi] is a Python float.  [initial_state n] is [Position.initial_state()]
    once [go.set_board_size(n)] has run; [play_move pos c] is
    [pos.play_move(c)], which is [None] when the move is illegal. *)
Class Go : Type := {
  Coord : Type;
  Board : Type;
  Groups : Type;
  Komi : Type;
  Extra : Type;
  pc : string → Coord;
  place_stone : Board → Z → Coord → Board;
  deduce_groups : Board → Groups;
  initial_state : Z → Position_ Board Groups Komi Extra;
  play_move : Position_ Board Groups Komi Extra → Coord
              → option (Position_ Board Groups Komi Extra);
  py_int : string → option Z;
  py_float : string → option Komi;
}.

Abbreviation Position := (Position_ Board Groups Komi Extra).

(** [PositionWithContext], the named tuple that [get_main_branch] yields. *)
Record PositionWithContext_ (Pos : Type) : Type := mkPositionWithContext {
  position : option Pos;
  next_move : option string;
  result_ : PropValue;
}.
Arguments mkPositionWithContext {Pos}.
Arguments position {Pos}.
Arguments next_move {Pos}.
Arguments result_ {Pos}.

Abbreviation PositionWithContext :=
  (PositionWithContext_ (Position_ Board Groups Komi Extra)).

(** The attributes that [SgfWrapper.__init__] sets; [collection] and [game]
    are kept as the root node of the first game. *)
Record SgfWrapper_ (Komi : Type) : Type := mkSgfWrapper {
  root : Node;
  sgf_result : PropValue;
  sgf_komi : Komi;
  board_size : Z;
}.
Arguments mkSgfWrapper {Komi}.
Arguments root {Komi}.
Arguments sgf_result {Komi}.
Arguments sgf_komi {Komi}.
Arguments board_size {Komi}.

Abbreviation SgfWrapper := (SgfWrapper_ Komi).

Section Replay.
Context `{G : Go}.

(** [pos._replace(board=b, groups=g)] *)
Definition replace_board_groups (pos : Position) (b : Board) (g : Groups) : Position :=
  {| board := b; groups := g; komi := komi pos;
     player1turn := player1turn pos; extra := extra pos |}.

(** [pos._replace(player1turn=t)] *)
Definition replace_player1turn (pos : Position) (t : bool) : Position :=
  {| board := board pos; groups := groups pos; komi := komi pos;
     player1turn := t; extra := extra pos |}.

(** [pos._replace(komi=k)] *)
Definition replace_komi (pos : Position) (k : Komi) : Position :=
  {| board := board pos; groups := groups pos; komi := k;
     player1turn := player1turn pos; extra := extra pos |}.

(** ** [handle_add_stones] *)

(** The two [for] loops over the added stones. *)
Definition add_black (b : Board) (stones : list string) : Board :=
  foldl (fun working_board s => place_stone working_board 1 (pc s)) b stones.

Definition add_white (b : Board) (stones : list string) : Board :=
  foldl (fun working_board s => place_stone working_board (-1) (pc s)) b stones.

Definition handle_add_stones (pos : Position) (node : Node) : Position :=
  let black_stones_added := default [] (properties node !! "AB") in
  let white_stones_added := default [] (properties node !! "AW") in
  let working_board := add_black (board pos) black_stones_added in
  let working_board := add_white working_board white_stones_added in
  if bool_decide (black_stones_added ≠ [] ∨ white_stones_added ≠ [])
  then replace_board_groups pos working_board (deduce_groups working_board)
  else pos.

(** ** [handle_play_stones] *)

(** Reading [pos.player1turn]: an [AttributeError] when [pos] is [None]. *)
Definition read_player1turn (pos : option Position) : result bool :=
  match pos with
  | Some p => Ok (player1turn p)
  | None => Raise AttributeError
  end.

(** The first half of [handle_play_stones]: the recorded move is played. *)
Definition play_recorded (pos : Position) (node : Node) : result (option Position) :=
  let props := properties node in
  if has_key props "W" then v ← item0 props "W"; Ok (play_move pos (pc v))
  else if has_key props "B" then v ← item0 props "B"; Ok (play_move pos (pc v))
  else Ok (Some pos).

(** The second half: the turn flag is set from the colour of the next node.
    [pos.player1turn] is read only when the comparison before [and] holds. *)
Definition correct_turn (pos : option Position) (next_player : option Color)
  : result (option Position) :=
  match next_player with
  | Some White =>
      read_player1turn pos ≫= λ t : bool,
      if t then Ok (flip replace_player1turn false <$> pos) else Ok pos
  | Some Black =>
      read_player1turn pos ≫= λ t : bool,
      if negb t then Ok (flip replace_player1turn true <$> pos) else Ok pos
  | None => Ok pos
  end.

Definition handle_play_stones (pos : Position) (node : Node) : result (option Position) :=
  pos' ← play_recorded pos node;
  nm ← get_next_move node;
  correct_turn pos' nm.1.

(** ** [PositionWithContext.is_usable] *)

(** [self.result != "Void"] *)
Definition is_void (r : PropValue) : bool :=
  match r with
  | PSingle s => bool_decide (s = "Void")
  | _ => false
  end.

Definition is_usable (r : PositionWithContext) : bool :=
  bool_decide (position r ≠ None) && bool_decide (next_move r ≠ None)
  && negb (is_void (result_ r)).

(** ** [SgfWrapper] *)

(** [int(v)] and [float(v)] on what [sgf_prop] returned: [None] and a list
    are a [TypeError], a string that is no literal a [ValueError]. *)
Definition int_of (v : PropValue) : result Z :=
  match v with
  | PSingle s => match py_int s with Some z => Ok z | None => Raise ValueError end
  | _ => Raise TypeError
  end.

Definition float_of (v : PropValue) : result Komi :=
  match v with
  | PSingle s => match py_float s with Some k => Ok k | None => Raise ValueError end
  | _ => Raise TypeError
  end.

(** [SgfWrapper.__init__], from the root of [collection.children[0]]. *)
Definition init (game_root : Node) : result SgfWrapper :=
  let props := properties game_root in
  gm ← int_of (sgf_prop (Some (default ["1"] (props !! "GM"))));
  if bool_decide (gm = 1) then
    let res := sgf_prop (props !! "RE") in
    km ← float_of (sgf_prop (props !! "KM"));
    sz ← int_of (sgf_prop (props !! "SZ"));
    Ok (mkSgfWrapper game_root res km sz)
  else Raise AssertionError.

(** ** [get_main_branch] *)

(** A run of the generator: the records it yields, then how it ends
    ([None]: the loop is left; [Some e]: [e] is raised). *)
Definition Run : Type := list PositionWithContext * option Exn.

Definition yield (r : PositionWithContext) (rest : Run) : Run :=
  (r :: rest.1, rest.2).

(** One pass through the body of the [while] loop, entered with [pos] and
    [current_node] both present. *)
Fixpoint walk (res : PropValue) (pos : Position) (current_node : Node) : Run :=
  match handle_play_stones (handle_add_stones pos current_node) current_node with
  | Raise e => ([], Some e)
  | Ok pos' =>
      match get_next_move current_node with
      | Raise e => ([], Some e)
      | Ok nm =>
          yield (mkPositionWithContext pos' nm.2 res)
            match pos', next current_node with
            | Some p, Some n => walk res p n
            | _, _ => ([], None)
            end
      end
  end.

(** The board size of the [go] module is state shared by all wrappers:
    [go.set_board_size], the last statement of [__init__], sets it, and
    [Position.initial_state()] reads it.  It is threaded explicitly.
    [construct game_root size] is [SgfWrapper(...)] run when the module-wide
    size is [size]: the wrapper (or the exception) and the size afterwards,
    which is unchanged when [__init__] raises. *)
Definition construct (game_root : Node) (size : Z) : result SgfWrapper * Z :=
  match init game_root with
  | Ok w => (Ok w, board_size w)
  | Raise e => (Raise e, size)
  end.

(** [get_main_branch], started when the module-wide board size is [size]. *)
Definition get_main_branch (size : Z) (w : SgfWrapper) : Run :=
  let pos := initial_state size in
  let pos := replace_komi pos (sgf_komi w) in
  walk (sgf_result w) pos (root w).

(** The move that [get_next_move] reads off [nx] has an empty value: the
    ['W'] property if there is one, else the ['B'] property. *)
Definition records_pass (nx : Node) : Prop :=
  (∃ vs, properties nx !! "W" = Some ("" :: vs)) ∨
  (properties nx !! "W" = None ∧ ∃ vs, properties nx !! "B" = Some ("" :: vs)).

(** A node whose move can be read: the value list of the property that is
    read (['W'] if present, else ['B']) is not empty.  [has_move]: one of the
    two properties is there. *)
Definition move_values_ok (n : Node) : Prop :=
  properties n !! "W" ≠ Some [] ∧
  (properties n !! "W" = None → properties n !! "B" ≠ Some []).

Definition has_move (n : Node) : Prop :=
  is_Some (properties n !! "W") ∨ is_Some (properties n !! "B").

(** The use shown in the docstring of [SgfWrapper]: construct the wrapper,
    then run the generator to its end.  Nothing happens in between, so the
    module-wide size is the one that [__init__] has just set. *)
Definition replay (game_root : Node) : result Run :=
  w ← init game_root; Ok (get_main_branch (board_size w) w).

End Replay.

(** ** Boards as finite maps *)

(** Modelled from the spec: [go.place_stone] is not part of this file.  The
    board is a mapping from coordinates to stone colours ([1] black, [-1]
    white; no entry: empty), and [place_stone(board, color, coordinate)]
    sets one point of it, with no capture and no legality check. *)
Definition map_place_stone `{Countable C} (b : gmap C Z) (color : Z) (c : C) : gmap C Z :=
  <[c := color]> b.

(** Modelled from the spec: [go.Position.play_move] is not part of this file.
    A pass ([is_pass c]) hands the turn over; a move on an occupied point is
    illegal and gives [None]; any other move puts a stone of the player to
    move on the board and hands the turn over.  Captures, ko and suicide are
    left out. *)
Definition map_play_move `{Countable C} {Gr K E : Type}
    (is_pass : C → bool) (dg : gmap C Z → Gr)
    (pos : Position_ (gmap C Z) Gr K E) (c : C)
  : option (Position_ (gmap C Z) Gr K E) :=
  if is_pass c then
    Some (mkPosition (board pos) (groups pos) (komi pos) (negb (player1turn pos)) (extra pos))
  else
    match board pos !! c with
    | Some _ => None
    | None =>
        let b := <[c := if player1turn pos then 1 else -1]> (board pos) in
        Some (mkPosition b (dg b) (komi pos) (negb (player1turn pos)) (extra pos))
    end.

(** The collaborators with such a board: everything but the board and the
    two operations on it is a parameter. *)
Definition map_go (C : Type) `{Countable C} (Gr K E : Type)
    (pc : string → C) (is_pass : C → bool) (dg : gmap C Z → Gr)
    (init : Z → Position_ (gmap C Z) Gr K E)
    (py_int : string → option Z) (py_float : string → option K) : Go :=
  {| Coord := C;
     Board := gmap C Z;
     Groups := Gr;
     Komi := K;
     Extra := E;
     pc := pc;
     place_stone := map_place_stone;
     deduce_groups := dg;
     initial_state := init;
     play_move := map_play_move is_pass dg;
     py_int := py_int;
     py_float := py_float |}.

Module RefGo.

(** A point of the board, (row, column). *)
Definition point : Type := nat * nat.

(** [SGF_COLUMNS.index(a)] for a lower-case letter [a]. *)
Definition column (a : ascii) : nat := nat_of_ascii a - 97.

(** Modelled from the spec: [utils.parse_sgf_coords] is not part of this
    file.  The empty value is a pass ([None]); otherwise the first letter is
    the column and the second the row. *)
Definition parse_sgf_coords (s : string) : option point :=
  match s with
  | String a (String b _) => Some (column b, column a)
  | _ => None
  end.

(** Modelled from the spec: [go.deduce_groups] is not part of this file.  The
    group data of a board is taken to be the stones of each colour. *)
Definition stones_of (color : Z) (b : gmap (option point) Z) : gset (option point) :=
  dom (filter (λ kv, kv.2 = color) b).

Definition ref_deduce_groups (b : gmap (option point) Z)
  : gset (option point) * gset (option point) :=
  (stones_of 1 b, stones_of (-1) b).

(** Stand-ins for [int] and [float] on plain decimal literals: digits with
    an optional minus sign and, for [ref_float], an optional fraction, read
    as an exact rational.  They read less than Python does (no spaces, no
    plus sign, no underscores, no exponent) and are used at ["1"], ["2"],
    ["9"], ["19"], ["6.5"] and ["0.5"] only, where they agree with it. *)
Fixpoint digits (s : string) (acc : Z) : option Z :=
  match s with
  | EmptyString => Some acc
  | String a s' =>
      let n := nat_of_ascii a in
      if (48 <=? n)%nat && (n <=? 57)%nat
      then digits s' (10 * acc + Z.of_nat (n - 48))
      else None
  end.

Definition ref_int (s : string) : option Z :=
  match s with
  | EmptyString => None
  | String "-" (String a s') => Z.opp <$> digits (String a s') 0
  | _ => digits s 0
  end.

(** [split_dot s]: the text before the first ["."] and the text after it,
    if there is one. *)
Fixpoint split_dot (s : string) : string * option string :=
  match s with
  | EmptyString => (EmptyString, None)
  | String "." s' => (EmptyString, Some s')
  | String a s' => let r := split_dot s' in (String a r.1, r.2)
  end.

Definition unsigned_float (s : string) : option Q :=
  match split_dot s with
  | (i, None) => (λ z, Qmake z 1) <$> (if decide (i = "") then None else digits i 0)
  | (i, Some f) =>
      if decide (i = "" ∧ f = "") then None else
      z ← digits i 0;
      d ← digits f 0;
      let scale := Z.pow 10 (Z.of_nat (String.length f)) in
      Some (Qmake (z * scale + d) (Z.to_pos scale))
  end.

Definition ref_float (s : string) : option Q :=
  match s with
  | String "-" s' => Qopp <$> unsigned_float s'
  | _ => unsigned_float s
  end.

(** The reference collaborators: an empty board with Black to move and a
    komi of 7.5 to start from. *)
#[export] Instance ref_go : Go :=
  map_go (option point) _ _ unit
    parse_sgf_coords (λ c, bool_decide (c = None)) ref_deduce_groups
    (λ _, mkPosition ∅ (∅, ∅) (Qmake 15 2) true ())
    ref_int ref_float.

(** Building nodes: [leaf props] has no child, [chain props n] has [n] as
    its next node. *)
Definition leaf (props : list (string * list string)) : Node :=
  mkNode (list_to_map props) None.

Definition chain (props : list (string * list string)) (n : Node) : Node :=
  mkNode (list_to_map props) (Some n).

(** The start of the walk for [ref_go], with a komi of 6.5. *)
Definition start : Position := replace_komi (initial_state 9) (Qmake 65 10).

(** Some nodes.  [two_nodes]: a root and one Black move.  [black_black_white]:
    free handicap, two Black moves before White's first.  [occupied]: White
    answers on the point Black has just taken, and the game goes on.
    [pass_next]: the move after Black's is a pass.  [stones_next]: the node
    after Black's move only adds a stone. *)
Definition white_cc : Node := leaf [("W", ["cc"])].
Definition black_bb : Node := chain [("B", ["bb"])] white_cc.
Definition black_aa : Node := chain [("B", ["aa"])] black_bb.

Definition two_nodes : Node :=
  chain [("GM", ["1"]); ("SZ", ["9"]); ("KM", ["6.5"])] (leaf [("B", ["cd"])]).

Definition black_black_white : Node :=
  chain [("GM", ["1"]); ("SZ", ["9"]); ("KM", ["6.5"])] black_aa.

Definition white_on_aa : Node := chain [("W", ["aa"])] (leaf [("B", ["cc"])]).

Definition occupied : Node :=
  chain [("SZ", ["9"]); ("KM", ["6.5"])] (chain [("B", ["aa"])] white_on_aa).

Definition pass_next : Node := chain [("B", ["aa"])] (leaf [("W", [""])]).

Definition stones_next : Node := chain [("B", ["aa"])] (leaf [("AB", ["cc"])]).

Definition other_game : Node :=
  chain [("GM", ["2"]); ("SZ", ["9"]); ("KM", ["6.5"])] (leaf [("B", ["cd"])]).

Definition handicap : Node := leaf [("AB", ["cc"; "gg"]); ("AW", ["dd"])].

(** The position of [start] once Black has played at ["aa"]. *)
Definition after_aa : Position := default start (play_move start (pc "aa")).

End RefGo.

(** * Properties *)

(** ** [sgf_prop] *)

(** C5, as the code has it: a missing list gives [None], a list of one
    value gives that value, and every other list is returned as it is;
    this includes the empty list, which is not turned into [None].  The
    function is total: no input makes it raise. *)
Theorem sgf_prop_spec (value_list : option (list string)) :
  (value_list = None → sgf_prop value_list = PNone) ∧
  (∀ l, value_list = Some l → length l = 1%nat →
        ∃ x, l = [x] ∧ sgf_prop value_list = PSingle x) ∧
  (∀ l, value_list = Some l → length l ≠ 1%nat → sgf_prop value_list = PList l).
Proof.
  split; [by intros -> |]. split.
  - intros l -> Hlen. destruct l as [|x [|y l]]; simplify_eq/=. by exists x.
  - intros l -> Hlen. by destruct l as [|x [|y l]].
Qed.

Lemma sgf_prop_spec_witness :
  sgf_prop None = PNone ∧
  (∃ x, ["B+R"] = [x] ∧ sgf_prop (Some ["B+R"]) = PSingle x) ∧
  sgf_prop (Some ["a"; "b"]) = PList ["a"; "b"].
Proof.
  split; [| split].
  - by apply (sgf_prop_spec None).
  - by apply (sgf_prop_spec (Some ["B+R"])).
  - apply (sgf_prop_spec (Some ["a"; "b"])); [reflexivity | simpl; lia].
Defined.

(** C5, as the claim words it, fails on the empty list: [sgf_prop([])] is
    the empty list itself and not [None]. *)
Lemma sgf_prop_empty_list :
  sgf_prop (Some []) = PList [] ∧ sgf_prop (Some []) ≠ PNone.
Proof. split; [reflexivity | discriminate]. Qed.

(** ** [get_next_move] *)

Lemma has_key_true props key : has_key props key = true ↔ is_Some (props !! key).
Proof. unfold has_key. by rewrite bool_decide_eq_true. Qed.

Lemma has_key_false props key : has_key props key = false ↔ props !! key = None.
Proof. unfold has_key. by rewrite bool_decide_eq_false, eq_None_not_Some. Qed.

Lemma has_key_lookup props key l : props !! key = Some l → has_key props key = true.
Proof. intros Hl. apply has_key_true. by exists l. Qed.

(** No next child: [(None, None)]. *)
Lemma get_next_move_last node :
  next node = None → get_next_move node = Ok (None, None).
Proof. unfold get_next_move. by intros ->. Qed.

(** A next child with a ['W'] property: White, and the first value of the
    property, or [None] when that value is empty (a pass). *)
Lemma get_next_move_white node nx v vs :
  next node = Some nx → properties nx !! "W" = Some (v :: vs) →
  get_next_move node = Ok (Some White, or_None v).
Proof.
  intros Hn Hw. unfold get_next_move, item0. rewrite Hn. simpl.
  by rewrite (has_key_lookup _ _ _ Hw), Hw.
Qed.

(** A next child with a ['B'] property and no ['W'] property: Black. *)
Lemma get_next_move_black node nx v vs :
  next node = Some nx → properties nx !! "W" = None →
  properties nx !! "B" = Some (v :: vs) →
  get_next_move node = Ok (Some Black, or_None v).
Proof.
  intros Hn Hw Hb. unfold get_next_move, item0. rewrite Hn. simpl.
  apply has_key_false in Hw as ->. by rewrite Hb.
Qed.

(** C2, where the code departs from it: when the next child has neither a
    ['W'] nor a ['B'] property, [props['B']] raises a [KeyError]; no
    [('B', None)] is returned. *)
Theorem get_next_move_no_move_property node nx :
  next node = Some nx →
  properties nx !! "W" = None → properties nx !! "B" = None →
  get_next_move node = Raise KeyError.
Proof.
  intros Hn Hw Hb. unfold get_next_move, item0. rewrite Hn. simpl.
  apply has_key_false in Hw as ->. by rewrite Hb.
Qed.

Lemma get_next_move_no_move_property_witness :
  get_next_move RefGo.stones_next = Raise KeyError.
Proof.
  by apply (get_next_move_no_move_property _ (RefGo.leaf [("AB", ["cc"])])).
Defined.

Section ReplayFacts.
Context `{G : Go}.
Implicit Types (pos p : Position) (node nx : Node) (res : PropValue).

(** ** [_replace] *)

Lemma replace_player1turn_same p : replace_player1turn p (player1turn p) = p.
Proof. by destruct p. Qed.

Lemma player1turn_replace p t : player1turn (replace_player1turn p t) = t.
Proof. done. Qed.

Lemma board_replace_player1turn p t : board (replace_player1turn p t) = board p.
Proof. done. Qed.

Lemma board_replace_komi p k : board (replace_komi p k) = board p.
Proof. done. Qed.

(** ** [handle_add_stones] *)

Lemma handle_add_stones_none pos node :
  default [] (properties node !! "AB") = [] →
  default [] (properties node !! "AW") = [] →
  handle_add_stones pos node = pos.
Proof.
  intros Hb Hw. unfold handle_add_stones. rewrite Hb, Hw.
  rewrite bool_decide_eq_false_2; [done | by intros [? | ?]].
Qed.

Lemma handle_add_stones_some pos node :
  (default [] (properties node !! "AB") ++ default [] (properties node !! "AW"))%list ≠ [] →
  handle_add_stones pos node =
    let working_board :=
      add_white (add_black (board pos) (default [] (properties node !! "AB")))
                (default [] (properties node !! "AW")) in
    replace_board_groups pos working_board (deduce_groups working_board).
Proof.
  intros Hne. unfold handle_add_stones.
  rewrite bool_decide_eq_true_2; [done |].
  destruct (default [] (properties node !! "AB")); [right | left]; [by simpl in Hne | done].
Qed.

(** C8: a node with no ['AB'] and no ['AW'] property leaves the position as
    it is.  When the two lists together hold at least one stone, the board
    of the result is the board of the input with [place_stone] applied for
    every black stone (colour 1) in list order and then for every white
    stone (colour -1) in list order, the groups of the result are
    [deduce_groups] of that board, and the other fields are those of the
    input. *)
Theorem handle_add_stones_spec pos node :
  (properties node !! "AB" = None → properties node !! "AW" = None →
   handle_add_stones pos node = pos) ∧
  (∀ black white,
     default [] (properties node !! "AB") = black →
     default [] (properties node !! "AW") = white →
     (black ++ white)%list ≠ [] →
     board (handle_add_stones pos node) =
       foldl (λ b s, place_stone b (-1) (pc s))
         (foldl (λ b s, place_stone b 1 (pc s)) (board pos) black) white ∧
     groups (handle_add_stones pos node) =
       deduce_groups
         (foldl (λ b s, place_stone b (-1) (pc s))
            (foldl (λ b s, place_stone b 1 (pc s)) (board pos) black) white) ∧
     komi (handle_add_stones pos node) = komi pos ∧
     player1turn (handle_add_stones pos node) = player1turn pos ∧
     extra (handle_add_stones pos node) = extra pos).
Proof.
  split.
  - intros Hb Hw. apply handle_add_stones_none; by rewrite ?Hb, ?Hw.
  - intros black white <- <- Hne. by rewrite handle_add_stones_some.
Qed.

(** ** [handle_play_stones] *)

Lemma correct_turn_some p c :
  correct_turn (Some p) (Some c) = Ok (Some (replace_player1turn p (turn_of c))).
Proof.
  destruct c; simpl; destruct (player1turn p) eqn:Ht; simpl; try done;
    by rewrite <- Ht, replace_player1turn_same.
Qed.

Lemma correct_turn_none_colour (o : option Position) : correct_turn o None = Ok o.
Proof. done. Qed.

Lemma correct_turn_none_position c : correct_turn None (Some c) = Raise AttributeError.
Proof. by destruct c. Qed.

Lemma handle_play_stones_played pos node p c v :
  play_recorded pos node = Ok (Some p) →
  get_next_move node = Ok (Some c, v) →
  handle_play_stones pos node = Ok (Some (replace_player1turn p (turn_of c))).
Proof.
  intros Hp Hn. unfold handle_play_stones. rewrite Hp, Hn. simpl.
  apply correct_turn_some.
Qed.

(** A refused move followed by a node with a move: [player1turn] is read
    off [None]. *)
Lemma handle_play_stones_refused pos node c v :
  play_recorded pos node = Ok None →
  get_next_move node = Ok (Some c, v) →
  handle_play_stones pos node = Raise AttributeError.
Proof.
  intros Hp Hn. unfold handle_play_stones. rewrite Hp, Hn. simpl.
  apply correct_turn_none_position.
Qed.

Lemma play_recorded_black pos node v vs :
  properties node !! "W" = None → properties node !! "B" = Some (v :: vs) →
  play_recorded pos node = Ok (play_move pos (pc v)).
Proof.
  intros Hw Hb. unfold play_recorded, item0.
  apply has_key_false in Hw as ->. by rewrite (has_key_lookup _ _ _ Hb), Hb.
Qed.

Lemma play_recorded_white pos node v vs :
  properties node !! "W" = Some (v :: vs) →
  play_recorded pos node = Ok (play_move pos (pc v)).
Proof.
  intros Hw. unfold play_recorded, item0.
  by rewrite (has_key_lookup _ _ _ Hw), Hw.
Qed.

Lemma play_recorded_no_move pos node :
  properties node !! "W" = None → properties node !! "B" = None →
  play_recorded pos node = Ok (Some pos).
Proof.
  intros Hw Hb. unfold play_recorded.
  by apply has_key_false in Hw as ->; apply has_key_false in Hb as ->.
Qed.

(** C1: once the move recorded at [node] has been played, giving [p], the
    result of [handle_play_stones] is [p] with its turn flag set from the
    colour [c] recorded at the next node: White to move ([false]) when [c]
    is White, Black to move ([true]) when [c] is Black, whatever the flag
    of [p] was.  In particular, for nodes recording Black ([n1]), Black
    ([n2]), White ([n3]), the position after the second Black move has
    White to move. *)
Theorem handle_play_stones_corrects_turn :
  (∀ pos node p c v,
     play_recorded pos node = Ok (Some p) →
     get_next_move node = Ok (Some c, v) →
     ∃ p', handle_play_stones pos node = Ok (Some p') ∧
           p' = replace_player1turn p (turn_of c) ∧
           (c = White → player1turn p' = false) ∧
           (c = Black → player1turn p' = true)) ∧
  (∀ pos n1 n2 n3 b1 b2 w p vs1 vs2 vs3,
     next n1 = Some n2 → next n2 = Some n3 →
     properties n1 !! "W" = None → properties n1 !! "B" = Some (b1 :: vs1) →
     properties n2 !! "W" = None → properties n2 !! "B" = Some (b2 :: vs2) →
     properties n3 !! "W" = Some (w :: vs3) →
     play_move pos (pc b2) = Some p →
     ∃ p', handle_play_stones pos n2 = Ok (Some p') ∧ player1turn p' = false).
Proof.
  split.
  - intros pos node p c v Hp Hn. eexists. split; [by eapply handle_play_stones_played |].
    split; [done |]. by split; intros ->.
  - intros pos n1 n2 n3 b1 b2 w p vs1 vs2 vs3 _ H23 _ _ Hw2 Hb2 Hw3 Hplay.
    eexists. split; [| apply (player1turn_replace p false)].
    apply (handle_play_stones_played pos n2 p White (or_None w)).
    + by rewrite (play_recorded_black _ _ _ _ Hw2 Hb2), Hplay.
    + by eapply get_next_move_white.
Qed.

(** ** [get_main_branch] *)

(** One turn of the loop that yields a record and goes on. *)
Lemma walk_continue res pos node nx p' nm :
  handle_play_stones (handle_add_stones pos node) node = Ok (Some p') →
  get_next_move node = Ok nm → next node = Some nx →
  walk res pos node = yield (mkPositionWithContext (Some p') nm.2 res) (walk res p' nx).
Proof. intros Hh Hn Hx. destruct node as [props nxt]. simpl in *. by rewrite Hh, Hn, Hx. Qed.

(** The last turn of the loop: the record is yielded and the loop is left. *)
Lemma walk_stop res pos node o nm :
  handle_play_stones (handle_add_stones pos node) node = Ok o →
  get_next_move node = Ok nm → o = None ∨ next node = None →
  walk res pos node = ([mkPositionWithContext o nm.2 res], None).
Proof.
  intros Hh Hn Hx. destruct node as [props nxt]. simpl in *. rewrite Hh, Hn.
  destruct Hx as [-> | ->]; [done | by destruct o].
Qed.

Lemma walk_raise res pos node e :
  handle_play_stones (handle_add_stones pos node) node = Raise e →
  walk res pos node = ([], Some e).
Proof. intros Hh. destruct node as [props nxt]. simpl in *. by rewrite Hh. Qed.

(** An illegal move at the last node of the main line does end the walk
    without a fault: the record with no position is yielded. *)
Lemma illegal_move_at_last_node res pos node :
  play_recorded (handle_add_stones pos node) node = Ok None →
  next node = None →
  walk res pos node = ([mkPositionWithContext None None res], None).
Proof.
  intros Hp Hx.
  apply (walk_stop res pos node None (None, None)); [| by apply get_next_move_last | by left].
  unfold handle_play_stones. by rewrite Hp, (get_next_move_last _ Hx).
Qed.

(** C3, where the code departs from it: when [play_move] refuses the move
    of a node that has a next node with a move, [handle_play_stones] reads
    [player1turn] of [None] and raises an [AttributeError]; the generator
    raises it without yielding a record for that node. *)
Theorem illegal_move_before_last_node res pos node c v :
  play_recorded (handle_add_stones pos node) node = Ok None →
  get_next_move node = Ok (Some c, v) →
  handle_play_stones (handle_add_stones pos node) node = Raise AttributeError ∧
  walk res pos node = ([], Some AttributeError).
Proof.
  intros Hp Hn.
  pose proof (handle_play_stones_refused _ _ _ _ Hp Hn) as Hh.
  split; [done | by apply walk_raise].
Qed.

(** C10: when the move that [get_next_move] reads off the next node has an
    empty value, the coordinate it returns is [None]; the record yielded for
    the current node then has no next move and is not usable, and the walk
    goes on with the next node.  The record is yielded whenever the move of
    the current node could be played. *)
Theorem pass_next_record_unusable res pos node nx :
  next node = Some nx → records_pass nx →
  (∃ c, get_next_move node = Ok (Some c, None)) ∧
  (∀ p, play_recorded (handle_add_stones pos node) node = Ok (Some p) →
        ∃ p', walk res pos node
              = yield (mkPositionWithContext (Some p') None res) (walk res p' nx)) ∧
  (∀ r rest e, walk res pos node = (r :: rest, e) →
        next_move r = None ∧ is_usable r = false ∧
        ∃ p', position r = Some p' ∧ (rest, e) = walk res p' nx).
Proof.
  intros Hx Hpass.
  assert (∃ c, get_next_move node = Ok (Some c, None)) as [c Hn].
  { destruct Hpass as [[vs Hw] | [Hw [vs Hb]]].
    - exists White. by rewrite (get_next_move_white _ _ _ _ Hx Hw).
    - exists Black. by rewrite (get_next_move_black _ _ _ _ Hx Hw Hb). }
  assert (∀ p, play_recorded (handle_add_stones pos node) node = Ok (Some p) →
    walk res pos node
    = yield (mkPositionWithContext (Some (replace_player1turn p (turn_of c))) None res)
        (walk res (replace_player1turn p (turn_of c)) nx)) as Hstep.
  { intros p Hp.
    by apply (walk_continue res pos node nx _ (Some c, None));
      [apply (handle_play_stones_played _ _ _ _ None) | |]. }
  split; [by exists c |]. split; [intros p Hp; eexists; by apply Hstep |].
  intros r rest e Hw.
  destruct (play_recorded (handle_add_stones pos node) node) as [[p|]|e'] eqn:Hp.
  - rewrite (Hstep p eq_refl) in Hw. unfold yield in Hw. simplify_eq/=.
    split; [done |]. split; [done |]. eexists. split; [done |].
    by destruct (walk res _ nx).
  - rewrite (walk_raise res pos node AttributeError) in Hw; [simplify_eq |].
    by apply (handle_play_stones_refused _ _ c None).
  - rewrite (walk_raise res pos node e') in Hw; [simplify_eq |].
    unfold handle_play_stones. by rewrite Hp.
Qed.

(** ** [is_usable] *)

(** C6: a record is usable exactly when it has a position, has a next move,
    and its result is not the string ["Void"]. *)
Theorem is_usable_iff (r : PositionWithContext) :
  is_usable r = true ↔
  position r ≠ None ∧ next_move r ≠ None ∧ result_ r ≠ PSingle "Void".
Proof.
  unfold is_usable. rewrite !andb_true_iff, !bool_decide_eq_true, negb_true_iff.
  assert (is_void (result_ r) = false ↔ result_ r ≠ PSingle "Void") as ->; [| tauto].
  destruct (result_ r) as [|s|l]; simpl; [done | | done].
  rewrite bool_decide_eq_false. split; congruence.
Qed.

(** ** [SgfWrapper.__init__] *)

Lemma init_game_type game_root w :
  init game_root = Ok w →
  int_of (sgf_prop (Some (default ["1"] (properties game_root !! "GM")))) = Ok 1.
Proof.
  unfold init. destruct (int_of (sgf_prop (Some _))) as [gm|e]; simpl; [| done].
  case_bool_decide; [by subst | done].
Qed.

(** C7: when the ['GM'] property of the root holds one value that reads as
    an integer other than 1, the assertion of [__init__] fails: no wrapper
    is made, and so no record is produced. *)
Theorem init_rejects_other_game_type game_root s gm :
  properties game_root !! "GM" = Some [s] → py_int s = Some gm → gm ≠ 1 →
  init game_root = Raise AssertionError ∧ replay game_root = Raise AssertionError.
Proof.
  intros Hgm Hint Hne.
  assert (init game_root = Raise AssertionError) as Hinit.
  { unfold init. rewrite Hgm. simpl. rewrite Hint. simpl.
    by rewrite bool_decide_eq_false_2. }
  split; [done |]. unfold replay. by rewrite Hinit.
Qed.

(** C4: the root carries ['GM[1]'], ['SZ[9]'] and ['KM[6.5]'] and no stone,
    its only child plays Black at [c] and has no child.  Then the wrapper is
    made and the generator yields two records and ends; the first holds the
    initial position for size 9 with the komi set and Black to move (its
    board is the initial board) and [c] as next move; the second holds what
    [play_move] makes of that position at [c], and no next move. *)
Theorem replay_two_nodes game_root child c k :
  py_int "1" = Some 1 → py_int "9" = Some 9 → py_float "6.5" = Some k →
  properties game_root !! "GM" = Some ["1"] →
  properties game_root !! "SZ" = Some ["9"] →
  properties game_root !! "KM" = Some ["6.5"] →
  properties game_root !! "AB" = None → properties game_root !! "AW" = None →
  properties game_root !! "W" = None → properties game_root !! "B" = None →
  next game_root = Some child →
  properties child !! "B" = Some [c] → c ≠ "" →
  properties child !! "W" = None →
  properties child !! "AB" = None → properties child !! "AW" = None →
  next child = None →
  let res := sgf_prop (properties game_root !! "RE") in
  let p0 := replace_player1turn (replace_komi (initial_state 9) k) true in
  replay game_root =
    Ok ([mkPositionWithContext (Some p0) (Some c) res;
         mkPositionWithContext (play_move p0 (pc c)) None res], None)
  ∧ board p0 = board (initial_state 9)
  ∧ (player1turn (initial_state 9) = true → p0 = replace_komi (initial_state 9) k).
Proof.
  intros H1 H9 Hk Hgm Hsz Hkm Hab Haw Hw Hb Hx Hcb Hc Hcw Hcab Hcaw Hcx res p0.
  split; [| split; [done |]].
  2: { intros Ht. subst p0. rewrite <- Ht.
       exact (replace_player1turn_same (replace_komi (initial_state 9) k)). }
  unfold replay, init. rewrite Hgm, Hsz, Hkm. simpl. rewrite H1, H9, Hk. simpl.
  unfold get_main_branch. simpl. fold res.
  assert (get_next_move game_root = Ok (Some Black, Some c)) as Hn.
  { rewrite (get_next_move_black _ _ _ _ Hx Hcw Hcb). unfold or_None.
    by rewrite decide_False. }
  rewrite (walk_continue res _ game_root child p0 (Some Black, Some c)); [| | done | done].
  - rewrite (walk_stop res p0 child (play_move p0 (pc c)) (None, None));
      [done | | by apply get_next_move_last | by right].
    rewrite handle_add_stones_none by (by rewrite ?Hcab, ?Hcaw).
    unfold handle_play_stones.
    by rewrite (play_recorded_black _ _ _ _ Hcw Hcb), (get_next_move_last _ Hcx).
  - rewrite handle_add_stones_none by (by rewrite ?Hab, ?Haw).
    by apply (handle_play_stones_played _ _ _ Black (Some c)); [apply play_recorded_no_move |].
Qed.

(** ** The order of the two setup loops *)

(** When [place_stone] on two different points can be done in either order,
    the black loop and the white loop can be swapped, as long as no black
    stone shares its point with a white one. *)
Section Commute.
Hypothesis place_stone_commute : ∀ (b : Board) (k1 k2 : Z) (c1 c2 : Coord),
  c1 ≠ c2 →
  place_stone (place_stone b k1 c1) k2 c2 = place_stone (place_stone b k2 c2) k1 c1.

Lemma add_black_place_white (black : list string) (w : string) (b : Board) :
  (∀ x, x ∈ black → pc x ≠ pc w) →
  place_stone (add_black b black) (-1) (pc w)
  = add_black (place_stone b (-1) (pc w)) black.
Proof.
  revert b. induction black as [|x black IH]; intros b Hne; [done |].
  simpl. rewrite IH by (intros y Hy; apply Hne; by right).
  f_equal. apply place_stone_commute, Hne. by left.
Qed.

Lemma add_white_add_black (black white : list string) (b : Board) :
  (∀ x y, x ∈ black → y ∈ white → pc x ≠ pc y) →
  add_white (add_black b black) white = add_black (add_white b white) black.
Proof.
  revert b. induction white as [|w white IH]; intros b Hne; [done |].
  simpl. rewrite add_black_place_white by (intros x Hx; apply Hne; [done | by left]).
  apply IH. intros x y Hx Hy. apply Hne; [done | by right].
Qed.

End Commute.

End ReplayFacts.

(** * Further properties of the replay *)

(** Induction along the main line. *)
Lemma Node_chain_ind (P : Node → Prop) :
  (∀ props, P (mkNode props None)) →
  (∀ props nx, P nx → P (mkNode props (Some nx))) →
  ∀ node, P node.
Proof.
  intros Hlast Hnext. fix IH 1. intros [props [nx|]].
  - apply Hnext, IH.
  - apply Hlast.
Qed.

(** ** [sgf_prop] *)

(** [sgf_prop] loses nothing: two inputs with the same result are the same
    input, since a list of one value is the only list returned as a bare
    value. *)
Theorem sgf_prop_inj (v1 v2 : option (list string)) :
  sgf_prop v1 = sgf_prop v2 → v1 = v2.
Proof.
  destruct v1 as [[|x1 [|y1 l1]]|], v2 as [[|x2 [|y2 l2]]|]; simpl; congruence.
Qed.

Lemma sgf_prop_inj_witness : Some (["W+2.5"] ++ [])%list = Some ["W+2.5"].
Proof. apply sgf_prop_inj. reflexivity. Defined.

(** ** [get_next_move] *)

(** Helpers on the result of [get_next_move]. *)
Lemma get_next_move_raise_kinds node e :
  get_next_move node = Raise e → e = KeyError ∨ e = IndexError.
Proof.
  unfold get_next_move, item0. destruct (next node) as [nx|]; [| done]. simpl.
  destruct (has_key (properties nx) "W").
  - destruct (properties nx !! "W") as [[|? ?]|]; simpl; intros [= <-]; auto.
  - destruct (properties nx !! "B") as [[|? ?]|]; simpl; intros [= <-]; auto.
Qed.

Lemma get_next_move_colour node c v :
  get_next_move node = Ok (c, v) → c = None ↔ next node = None.
Proof.
  unfold get_next_move. destruct (next node) as [nx|]; simpl; [| by intros [= <- <-]].
  destruct (has_key (properties nx) "W");
    [destruct (item0 (properties nx) "W") | destruct (item0 (properties nx) "B")];
    simpl; by intros [= <- <-].
Qed.

(** When [get_next_move] raises: a [KeyError] exactly when there is a next
    node with neither a ['W'] nor a ['B'] property, an [IndexError] exactly
    when the property it reads (['W'] if present, else ['B']) has an empty
    value list, and nothing else. *)
Theorem get_next_move_raises node e :
  get_next_move node = Raise e ↔
  ∃ nx, next node = Some nx ∧
    ((e = KeyError ∧ properties nx !! "W" = None ∧ properties nx !! "B" = None) ∨
     (e = IndexError ∧
      (properties nx !! "W" = Some [] ∨
       (properties nx !! "W" = None ∧ properties nx !! "B" = Some [])))).
Proof.
  split.
  - unfold get_next_move, item0. destruct (next node) as [nx|]; [| done].
    intros Hr. exists nx. split; [done |]. simpl in Hr.
    destruct (properties nx !! "W") as [[|w ws]|] eqn:Hw.
    + rewrite (has_key_lookup _ _ _ Hw) in Hr. simpl in Hr. injection Hr as <-.
      right. split; [done | by left].
    + by rewrite (has_key_lookup _ _ _ Hw) in Hr.
    + rewrite (proj2 (has_key_false _ _) Hw) in Hr.
      destruct (properties nx !! "B") as [[|b bs]|] eqn:Hb; simpl in Hr.
      * injection Hr as <-. right. split; [done | by right].
      * done.
      * injection Hr as <-. by left.
  - intros (nx & Hn & [(-> & Hw & Hb) | (-> & [Hw | [Hw Hb]])]);
      unfold get_next_move, item0; rewrite Hn; simpl.
    + by rewrite (proj2 (has_key_false _ _) Hw), Hb.
    + by rewrite (has_key_lookup _ _ _ Hw), Hw.
    + by rewrite (proj2 (has_key_false _ _) Hw), Hb.
Qed.

Lemma get_next_move_raises_witness :
  get_next_move (RefGo.chain [] (RefGo.leaf [("W", []); ("B", ["aa"])]))
  = Raise IndexError.
Proof.
  apply get_next_move_raises. exists (RefGo.leaf [("W", []); ("B", ["aa"])]).
  split; [reflexivity |]. right. split; [reflexivity |]. left. by vm_compute.
Defined.

(** What [get_next_move] returns: no colour exactly when there is no next
    node, a move only together with a colour, and never the empty string as
    a move. *)
Theorem get_next_move_shape node c v :
  get_next_move node = Ok (c, v) →
  (c = None ↔ next node = None) ∧ (c = None → v = None) ∧ v ≠ Some "".
Proof.
  unfold get_next_move. destruct (next node) as [nx|]; simpl.
  - assert (∀ w, or_None w ≠ Some "") as Hor.
    { intros w. unfold or_None. case_decide; congruence. }
    destruct (has_key (properties nx) "W");
      [destruct (item0 (properties nx) "W") | destruct (item0 (properties nx) "B")];
      simpl; intros [= <- <-]; (split; [done |]); (split; [done |]); apply Hor.
  - intros [= <- <-]. done.
Qed.

Lemma get_next_move_shape_witness :
  (Some Black = None ↔ next RefGo.black_aa = None) ∧
  (Some Black = None → Some "bb" = None) ∧ Some "bb" ≠ Some "".
Proof. by apply (get_next_move_shape RefGo.black_aa). Defined.

Section MoreReplayFacts.
Context `{G : Go}.
Implicit Types (pos p : Position) (node nx : Node) (res : PropValue).

(** ** [handle_add_stones] *)

(** Setup stones touch the board and the groups only: komi, turn flag and
    the remaining fields of the position are kept. *)
Theorem handle_add_stones_keeps pos node :
  komi (handle_add_stones pos node) = komi pos ∧
  player1turn (handle_add_stones pos node) = player1turn pos ∧
  extra (handle_add_stones pos node) = extra pos.
Proof. unfold handle_add_stones. by case_bool_decide. Qed.

(** Groups that are the ones deduced from the board stay so across
    [handle_add_stones], whether stones are added or not. *)
Theorem handle_add_stones_groups pos node :
  groups pos = deduce_groups (board pos) →
  groups (handle_add_stones pos node)
  = deduce_groups (board (handle_add_stones pos node)).
Proof. intros Hg. unfold handle_add_stones. by case_bool_decide. Qed.

(** ** [handle_play_stones] *)

(** How [handle_play_stones] comes to return: the move was played, giving
    [o'], the next move was read, giving [nm], and the flag was corrected. *)
Lemma handle_play_stones_ok pos node o :
  handle_play_stones pos node = Ok o →
  ∃ o' nm, play_recorded pos node = Ok o' ∧ get_next_move node = Ok nm ∧
           correct_turn o' nm.1 = Ok o.
Proof.
  unfold handle_play_stones. destruct (play_recorded pos node) as [o'|]; [| done].
  destruct (get_next_move node) as [nm|]; [| done]. simpl. eauto.
Qed.

Lemma correct_turn_ok (o' o : option Position) (c : option Color) :
  correct_turn o' c = Ok o →
  (c = None ∧ o = o') ∨
  (∃ c' p, c = Some c' ∧ o' = Some p ∧ o = Some (replace_player1turn p (turn_of c'))).
Proof.
  destruct c as [c'|]; [| intros [= <-]; by left].
  destruct o' as [p|]; [| by rewrite correct_turn_none_position].
  rewrite correct_turn_some. intros [= <-]. right. eauto.
Qed.

(** At the last node of the main line the flag is left as [play_move] set
    it, and a refused move comes back as [None]: the result is the one of
    playing the recorded move. *)
Theorem handle_play_stones_last_node pos node :
  next node = None → handle_play_stones pos node = play_recorded pos node.
Proof.
  intros Hx. unfold handle_play_stones. rewrite (get_next_move_last _ Hx).
  by destruct (play_recorded pos node).
Qed.

(** The correction changes the turn flag only: board, groups, komi and the
    remaining fields are those of the position that [play_move] returned. *)
Theorem handle_play_stones_keeps pos node p p' :
  play_recorded pos node = Ok (Some p) →
  handle_play_stones pos node = Ok (Some p') →
  board p' = board p ∧ groups p' = groups p ∧ komi p' = komi p ∧ extra p' = extra p.
Proof.
  intros Hp Hh. apply handle_play_stones_ok in Hh as (o' & nm & Hp' & _ & Hc).
  rewrite Hp in Hp'. injection Hp' as <-.
  apply correct_turn_ok in Hc as [[_ [= ->]] | (c' & q & _ & [= <-] & [= ->])]; done.
Qed.

(** A node without a move: the position is kept but for the turn flag. *)
Theorem handle_play_stones_no_move pos node p' :
  properties node !! "W" = None → properties node !! "B" = None →
  handle_play_stones pos node = Ok (Some p') →
  p' = replace_player1turn pos (player1turn p').
Proof.
  intros Hw Hb Hh. apply handle_play_stones_ok in Hh as (o' & nm & Hp' & _ & Hc).
  rewrite (play_recorded_no_move _ _ Hw Hb) in Hp'. injection Hp' as <-.
  apply correct_turn_ok in Hc as [[_ [= ->]] | (c' & q & _ & [= <-] & [= ->])].
  - by rewrite replace_player1turn_same.
  - done.
Qed.

(** The label and the move agree.  When [get_next_move] reports colour [c]
    and move [v] for the next node [nx], the move that [handle_play_stones]
    plays at [nx] is the first value [raw] of the same property, and [v] is
    [raw], or [None] when [raw] is empty.  A ['W'] property goes before a
    ['B'] property in both. *)
Theorem next_move_is_played node nx c v pos :
  next node = Some nx → get_next_move node = Ok (Some c, v) →
  ∃ raw, play_recorded pos nx = Ok (play_move pos (pc raw)) ∧ v = or_None raw ∧
         item0 (properties nx) (match c with White => "W" | Black => "B" end) = Ok raw.
Proof.
  intros Hx. unfold get_next_move, play_recorded. rewrite Hx. simpl.
  destruct (has_key (properties nx) "W") eqn:Hw.
  - destruct (item0 (properties nx) "W") as [raw|] eqn:Hi; simpl; [| done].
    intros [= <- <-]. exists raw. by rewrite Hi.
  - destruct (item0 (properties nx) "B") as [raw|] eqn:Hi; simpl; [| done].
    intros [= <- <-]. exists raw. rewrite Hi. split; [| done].
    assert (has_key (properties nx) "B" = true) as ->; [| done].
    unfold item0 in Hi. destruct (properties nx !! "B") eqn:Hb; [| done].
    by eapply has_key_lookup.
Qed.

(** ** [SgfWrapper.__init__] *)

Lemma int_of_sgf_prop_ok (o : option (list string)) (z : Z) :
  int_of (sgf_prop o) = Ok z ↔ ∃ s, o = Some [s] ∧ py_int s = Some z.
Proof.
  split.
  - destruct o as [[|s [|t l]]|]; simpl; try done.
    destruct (py_int s) as [z'|] eqn:Hs; [| done]. intros [= <-]. eauto.
  - intros (s & -> & Hs). simpl. by rewrite Hs.
Qed.

Lemma float_of_sgf_prop_ok (o : option (list string)) (k : Komi) :
  float_of (sgf_prop o) = Ok k ↔ ∃ s, o = Some [s] ∧ py_float s = Some k.
Proof.
  split.
  - destruct o as [[|s [|t l]]|]; simpl; try done.
    destruct (py_float s) as [k'|] eqn:Hs; [| done]. intros [= <-]. eauto.
  - intros (s & -> & Hs). simpl. by rewrite Hs.
Qed.

(** When construction succeeds, and with what: exactly when ['GM'], or
    ['1'] in its place when it is missing, holds one value that reads as 1,
    ['KM'] holds one value that reads as a float, and ['SZ'] holds one value
    that reads as an integer.
    The wrapper then keeps the root, the decoded ['RE'] property (absent, one
    value, or a list), that komi and that size. *)
Theorem init_ok_iff game_root w :
  init game_root = Ok w ↔
  (∃ g, default ["1"] (properties game_root !! "GM") = [g] ∧ py_int g = Some 1) ∧
  (∃ k, properties game_root !! "KM" = Some [k] ∧ py_float k = Some (sgf_komi w)) ∧
  (∃ z, properties game_root !! "SZ" = Some [z] ∧ py_int z = Some (board_size w)) ∧
  root w = game_root ∧
  sgf_result w = sgf_prop (properties game_root !! "RE").
Proof.
  unfold init. split.
  - destruct (int_of (sgf_prop (Some _))) as [gm|] eqn:Hgm; simpl; [| done].
    case_bool_decide as Hone; [subst gm | done].
    destruct (float_of _) as [km|] eqn:Hkm; simpl; [| done].
    destruct (int_of (sgf_prop (properties game_root !! "SZ"))) as [sz|] eqn:Hsz;
      simpl; [| done].
    intros [= <-]. simpl.
    apply float_of_sgf_prop_ok in Hkm. apply int_of_sgf_prop_ok in Hsz.
    split; [| done].
    apply int_of_sgf_prop_ok in Hgm as (g & [= ->] & Hg). eauto.
  - intros ((g & Hgm & Hg) & Hkm & Hsz & Hroot & Hres).
    rewrite Hgm. simpl. rewrite Hg. simpl. rewrite (proj2 (float_of_sgf_prop_ok _ _) Hkm). simpl.
    rewrite (proj2 (int_of_sgf_prop_ok _ _) Hsz). simpl.
    destruct w. simpl in *. by subst.
Qed.

(** The komi and the board size are required: without a ['KM'] property
    [float(None)] raises a [TypeError], and with it but without an ['SZ']
    property [int(None)] does, although ['GM'] passed the check. *)
Theorem init_missing_komi_or_size game_root g :
  default ["1"] (properties game_root !! "GM") = [g] → py_int g = Some 1 →
  (properties game_root !! "KM" = None → init game_root = Raise TypeError) ∧
  (∀ s k, properties game_root !! "KM" = Some [s] → py_float s = Some k →
          properties game_root !! "SZ" = None → init game_root = Raise TypeError).
Proof.
  intros Hgm Hg. unfold init. rewrite Hgm. simpl. rewrite Hg. simpl. split.
  - by intros ->.
  - intros s k -> Hk ->. simpl. by rewrite Hk.
Qed.

(** A property with several values where one number is read is a
    [TypeError] too: [int] and [float] are handed the list. *)
Theorem init_several_values game_root g1 g2 gs :
  properties game_root !! "GM" = Some (g1 :: g2 :: gs) →
  init game_root = Raise TypeError.
Proof. intros Hgm. unfold init. by rewrite Hgm. Qed.

(** ** [get_main_branch] *)

(** [handle_play_stones] raises nothing but these three. *)
Lemma handle_play_stones_raises pos node e :
  handle_play_stones pos node = Raise e →
  e = KeyError ∨ e = IndexError ∨ e = AttributeError.
Proof.
  unfold handle_play_stones.
  destruct (play_recorded pos node) as [o'|e'] eqn:Hp; simpl.
  - destruct (get_next_move node) as [[c v]|e'] eqn:Hn; simpl.
    + destruct c as [c|]; [| done]. destruct o' as [p|].
      * by rewrite correct_turn_some.
      * rewrite correct_turn_none_position. intros [= <-]. auto.
    + intros [= <-]. apply get_next_move_raise_kinds in Hn as [-> | ->]; auto.
  - intros [= <-]. unfold play_recorded, item0 in Hp.
    destruct (has_key (properties node) "W").
    { destruct (properties node !! "W") as [[|? ?]|]; simplify_eq/=; auto. }
    destruct (has_key (properties node) "B"); [| done].
    destruct (properties node !! "B") as [[|? ?]|]; simplify_eq/=; auto.
Qed.

(** The three ways through the body of the loop: a fault; a record and
    another turn, with a position whose flag is the next colour; a record
    and the end, which happens at the last node only. *)
Lemma walk_cases res pos node :
  (∃ e, (e = KeyError ∨ e = IndexError ∨ e = AttributeError) ∧
        handle_play_stones (handle_add_stones pos node) node = Raise e ∧
        walk res pos node = ([], Some e)) ∨
  (∃ p nx c v, next node = Some nx ∧ get_next_move node = Ok (Some c, v) ∧
        player1turn p = turn_of c ∧
        handle_play_stones (handle_add_stones pos node) node = Ok (Some p) ∧
        walk res pos node = yield (mkPositionWithContext (Some p) v res) (walk res p nx)) ∨
  (∃ o, next node = None ∧
        handle_play_stones (handle_add_stones pos node) node = Ok o ∧
        walk res pos node = ([mkPositionWithContext o None res], None)).
Proof.
  destruct (handle_play_stones (handle_add_stones pos node) node) as [o|e] eqn:Hh.
  - destruct (handle_play_stones_ok _ _ _ Hh) as (o' & [c v] & Hp & Hn & Hc).
    pose proof (get_next_move_colour _ _ _ Hn) as Hnone.
    right. destruct (next node) as [nx|] eqn:Hx.
    + left. destruct c as [c|]; [| by destruct Hnone as [Hnone _]; specialize (Hnone eq_refl)].
      apply correct_turn_ok in Hc as [[[=] _] | (c' & q & [= <-] & -> & ->)].
      exists (replace_player1turn q (turn_of c)), nx, c, v.
      split; [done |]. split; [done |]. split; [done |]. split; [done |].
      by rewrite (walk_continue res pos node nx _ (Some c, v) Hh Hn Hx).
    + right. exists o. split; [done |]. split; [done |].
      rewrite (get_next_move_last _ Hx) in Hn. injection Hn as <- <-.
      by rewrite (walk_stop res pos node o (None, None) Hh (get_next_move_last _ Hx));
        [| right].
  - left. exists e. split; [by eapply handle_play_stones_raises |].
    split; [done | by apply walk_raise].
Qed.

Lemma main_line_next node nx :
  next node = Some nx → main_line node = node :: main_line nx.
Proof. destruct node as [props o]. simpl. by intros ->. Qed.

Lemma main_line_last node : next node = None → main_line node = [node].
Proof. destruct node as [props o]. simpl. by intros ->. Qed.

Lemma main_line_unfold node :
  main_line node = node :: match next node with Some nx => main_line nx | None => [] end.
Proof. by destruct node. Qed.

(** Every record of a walk carries the result the walk was started with. *)
Theorem walk_result res pos node :
  Forall (λ r, result_ r = res) (walk res pos node).1.
Proof.
  revert pos. induction node as [props | props nx IH] using Node_chain_ind; intros pos.
  - destruct (walk_cases res pos (mkNode props None))
      as [(e & _ & _ & ->) | [(p & nx & c & v & [=] & _) | (o & _ & _ & ->)]]; simpl; auto.
  - destruct (walk_cases res pos (mkNode props (Some nx)))
      as [(e & _ & _ & ->) | [(p & nx' & c & v & [= <-] & _ & _ & _ & ->) | (o & [=] & _)]];
      simpl; auto.
Qed.

(** A walk that ends without a fault has yielded one record for each node
    of the main line; the last of them has no next move, so it is not
    usable. *)
Theorem walk_normal_end res pos node :
  (walk res pos node).2 = None →
  length (walk res pos node).1 = length (main_line node) ∧
  ∃ r, last (walk res pos node).1 = Some r ∧ next_move r = None ∧ is_usable r = false.
Proof.
  revert pos. induction node as [props | props nx IH] using Node_chain_ind; intros pos.
  - destruct (walk_cases res pos (mkNode props None))
      as [(e & _ & _ & ->) | [(p & nx & c & v & [=] & _) | (o & _ & _ & ->)]]; simpl; [done |].
    intros _. split; [done |]. eexists. split; [done |]. split; [done |].
    unfold is_usable. simpl. by rewrite andb_false_r.
  - destruct (walk_cases res pos (mkNode props (Some nx)))
      as [(e & _ & _ & ->) | [(p & nx' & c & v & [= <-] & _ & _ & _ & ->) | (o & [=] & _)]];
      simpl; [done |].
    intros He. destruct (IH p He) as (Hlen & r & Hlast & Hr). split; [by rewrite Hlen |].
    exists r. split; [| done].
    destruct (walk res p nx).1 as [|r' rs]; [done |]. by rewrite last_cons, Hlast.
Qed.

(** A walk that ends in a fault has yielded fewer records than the main
    line has nodes, and the fault is a [KeyError], an [IndexError] or an
    [AttributeError]. *)
Theorem walk_fault res pos node e :
  (walk res pos node).2 = Some e →
  (length (walk res pos node).1 < length (main_line node))%nat ∧
  (e = KeyError ∨ e = IndexError ∨ e = AttributeError).
Proof.
  revert pos. induction node as [props | props nx IH] using Node_chain_ind; intros pos.
  - destruct (walk_cases res pos (mkNode props None))
      as [(e' & He' & _ & ->) | [(p & nx & c & v & [=] & _) | (o & _ & _ & ->)]]; simpl;
      [| done].
    intros [= <-]. split; [lia | done].
  - destruct (walk_cases res pos (mkNode props (Some nx)))
      as [(e' & He' & _ & ->) | [(p & nx' & c & v & [= <-] & _ & _ & _ & ->) | (o & [=] & _)]];
      simpl.
    + intros [= <-]. split; [lia | done].
    + intros He. destruct (IH p He) as [Hlen Hkind]. split; [lia | done].
Qed.

(** The purpose of the look-ahead, along the whole walk: the record yielded
    for a node that has a next node holds a position, its next move is the
    move read off that next node, and the turn flag of the position is the
    colour recorded there. *)
Theorem walk_turn_matches_next res pos node i r nx :
  (walk res pos node).1 !! i = Some r →
  main_line node !! S i = Some nx →
  ∃ n p c, main_line node !! i = Some n ∧ next n = Some nx ∧
           position r = Some p ∧
           get_next_move n = Ok (Some c, next_move r) ∧
           player1turn p = turn_of c.
Proof.
  revert pos i. induction node as [props | props nx0 IH] using Node_chain_ind;
    intros pos i Hr Hnx.
  - by destruct i.
  - destruct (walk_cases res pos (mkNode props (Some nx0)))
      as [(e & _ & _ & Hw) | [(p & nx' & c & v & [= <-] & Hn & Ht & _ & Hw) | (o & [=] & _)]];
      rewrite Hw in Hr; simpl in Hr; [done |].
    destruct i as [|i]; simpl in Hr, Hnx.
    + injection Hr as <-. exists (mkNode props (Some nx0)), p, c.
      destruct nx0 as [props0 o0]. simpl in Hnx. injection Hnx as <-. done.
    + destruct (IH p i Hr Hnx) as (n & q & c' & Hi & Hrest). exists n, q, c'.
      split; [exact Hi | exact Hrest].
Qed.

Lemma play_recorded_values_ok pos node :
  move_values_ok node → ∃ o, play_recorded pos node = Ok o.
Proof.
  intros [Hw Hb]. unfold play_recorded, item0.
  destruct (properties node !! "W") as [[|w ws]|] eqn:Ew.
  - done.
  - rewrite (has_key_lookup _ _ _ Ew). simpl. eauto.
  - rewrite (proj2 (has_key_false _ _) Ew).
    destruct (properties node !! "B") as [[|b bs]|] eqn:Eb.
    + by destruct (Hb eq_refl).
    + rewrite (has_key_lookup _ _ _ Eb). simpl. eauto.
    + rewrite (proj2 (has_key_false _ _) Eb). eauto.
Qed.

Lemma get_next_move_values_ok node :
  (∀ nx, next node = Some nx → move_values_ok nx ∧ has_move nx) →
  ∃ nm, get_next_move node = Ok nm.
Proof.
  intros Hnx. unfold get_next_move, item0. destruct (next node) as [nx|]; [| eauto].
  destruct (Hnx nx eq_refl) as [[Hw Hb] Hmove]. simpl.
  destruct (properties nx !! "W") as [[|w ws]|] eqn:Ew.
  - done.
  - rewrite (has_key_lookup _ _ _ Ew). simpl. eauto.
  - rewrite (proj2 (has_key_false _ _) Ew).
    destruct (properties nx !! "B") as [[|b bs]|] eqn:Eb.
    + by destruct (Hb eq_refl).
    + simpl. eauto.
    + destruct Hmove as [[? ?] | [? ?]]; congruence.
Qed.

Lemma handle_play_stones_values_ok pos node e :
  move_values_ok node →
  (∀ nx, next node = Some nx → move_values_ok nx ∧ has_move nx) →
  handle_play_stones pos node = Raise e → e = AttributeError.
Proof.
  intros Hval Hnx. unfold handle_play_stones.
  destruct (play_recorded_values_ok pos node Hval) as [o ->].
  destruct (get_next_move_values_ok node Hnx) as [[c v] ->]. simpl.
  destruct c as [c|]; [| done].
  destruct o as [q|]; [by rewrite correct_turn_some |].
  rewrite correct_turn_none_position. by intros [= <-].
Qed.

(** On a main line where every node after the first has a ['W'] or a ['B']
    property and no move property that is read has an empty value list, the
    only fault a walk can end in is the [AttributeError] of a refused move:
    it never raises a [KeyError] or an [IndexError]. *)
Theorem walk_well_formed res pos node :
  Forall move_values_ok (main_line node) →
  Forall has_move (tail (main_line node)) →
  (walk res pos node).2 = None ∨ (walk res pos node).2 = Some AttributeError.
Proof.
  revert pos. induction node as [props | props nx IH] using Node_chain_ind;
    intros pos Hvals Hmoves.
  - destruct (walk_cases res pos (mkNode props None))
      as [(e & _ & Hh & ->) | [(p & nx & c & v & [=] & _) | (o & _ & _ & ->)]];
      simpl; [| by left].
    right. f_equal. apply Forall_cons in Hvals as [Hval _].
    by apply (handle_play_stones_values_ok _ _ _ Hval) in Hh.
  - rewrite (main_line_next (mkNode props (Some nx)) nx eq_refl) in Hvals, Hmoves.
    apply Forall_cons in Hvals as [Hval Hvals]. simpl in Hmoves.
    rewrite (main_line_unfold nx) in Hvals, Hmoves.
    apply Forall_cons in Hmoves as [Hmove Hmoves].
    destruct (walk_cases res pos (mkNode props (Some nx)))
      as [(e & _ & Hh & ->) | [(p & nx' & c & v & [= <-] & _ & _ & _ & ->) | (o & [=] & _)]];
      simpl.
    + right. f_equal. apply (handle_play_stones_values_ok _ _ _ Hval) in Hh; [done |].
      intros nx' [= <-]. by apply Forall_cons in Hvals as [? _].
    + apply IH; by rewrite (main_line_unfold nx).
Qed.

(** The first record of a walk from a node without a move: it holds a
    position with the komi the walk was started with and, when the node
    adds no stones either, the board it was started with. *)
Lemma walk_first_no_move res pos node r rest e :
  properties node !! "W" = None → properties node !! "B" = None →
  walk res pos node = (r :: rest, e) →
  ∃ p, position r = Some p ∧ komi p = komi pos ∧
       (properties node !! "AB" = None → properties node !! "AW" = None →
        board p = board pos).
Proof.
  intros Hw Hb.
  assert (∀ o, handle_play_stones (handle_add_stones pos node) node = Ok o →
    ∃ p, o = Some p ∧ komi p = komi pos ∧
         (properties node !! "AB" = None → properties node !! "AW" = None →
          board p = board pos)) as Hfirst.
  { intros o Hh. destruct (handle_play_stones_ok _ _ _ Hh) as (o' & nm & Hp & _ & Hc).
    rewrite (play_recorded_no_move _ _ Hw Hb) in Hp. injection Hp as <-.
    assert (∃ t, o = Some (replace_player1turn (handle_add_stones pos node) t))
      as [t ->].
    { apply correct_turn_ok in Hc as [[_ ->] | (c' & q & _ & [= <-] & ->)]; [| eauto].
      eexists. by rewrite replace_player1turn_same. }
    eexists. split; [done |]. simpl. split.
    - unfold handle_add_stones. by case_bool_decide.
    - intros Hab Haw. rewrite handle_add_stones_none by (by rewrite ?Hab, ?Haw). done. }
  destruct (walk_cases res pos node)
    as [(e' & _ & _ & ->) | [(p & nx & c & v & _ & _ & _ & Hh & ->) | (o & _ & Hh & ->)]];
    [done | |]; intros [= <- _ _]; simpl; by apply Hfirst.
Qed.

(** The first record of [get_main_branch] for a root without a move: it
    holds a position with the komi of the wrapper and, when the root adds
    no stones either, the board of the initial state for the module-wide
    board size at the time of the walk, whatever the size of the wrapper. *)
Theorem get_main_branch_first size w r rest e :
  properties (root w) !! "W" = None → properties (root w) !! "B" = None →
  get_main_branch size w = (r :: rest, e) →
  ∃ p, position r = Some p ∧ komi p = sgf_komi w ∧
       (properties (root w) !! "AB" = None → properties (root w) !! "AW" = None →
        board p = board (initial_state size)).
Proof.
  intros Hw Hb Hrun. unfold get_main_branch in Hrun.
  apply (walk_first_no_move _ _ _ _ _ _ Hw Hb Hrun).
Qed.

(** [replay] is construction followed at once by the walk, from any
    module-wide size before. *)
Lemma replay_construct game_root size :
  replay game_root =
    match construct game_root size with
    | (Ok w, size') => Ok (get_main_branch size' w)
    | (Raise e, _) => Raise e
    end.
Proof. unfold replay, construct. by destruct (init game_root). Qed.

(** The size is shared.  When a second wrapper is constructed before the
    first one is walked, the walk of the first starts from the initial state
    for the size of the second: for a root without move and setup stones,
    the board of its first record is the initial board of that size. *)
Theorem get_main_branch_stale_size root1 root2 size0 w1 w2 size1 size2 r rest e :
  construct root1 size0 = (Ok w1, size1) →
  construct root2 size1 = (Ok w2, size2) →
  properties root1 !! "W" = None → properties root1 !! "B" = None →
  properties root1 !! "AB" = None → properties root1 !! "AW" = None →
  get_main_branch size2 w1 = (r :: rest, e) →
  size1 = board_size w1 ∧ size2 = board_size w2 ∧
  ∃ p, position r = Some p ∧ board p = board (initial_state (board_size w2)).
Proof.
  unfold construct. intros H1 H2 Hw Hb Hab Haw Hrun.
  destruct (init root1) as [w1'|] eqn:Hi1; [| done]. injection H1 as -> <-.
  destruct (init root2) as [w2'|] eqn:Hi2; [| done]. injection H2 as -> <-.
  split; [done |]. split; [done |].
  assert (root w1 = root1) as Hroot.
  { unfold init in Hi1.
    destruct (int_of (sgf_prop (Some _))); simpl in Hi1; [| done].
    case_bool_decide; [| done].
    destruct (float_of _); simpl in Hi1; [| done].
    destruct (int_of (sgf_prop (properties root1 !! "SZ"))); simpl in Hi1; [| done].
    by injection Hi1 as <-. }
  rewrite <- Hroot in Hw, Hb, Hab, Haw.
  unfold get_main_branch in Hrun.
  destruct (walk_first_no_move _ _ _ _ _ _ Hw Hb Hrun) as (p & Hp & _ & Hboard).
  exists p. split; [done | by apply Hboard].
Qed.

End MoreReplayFacts.

(** ** Setup stones on a board that is a finite map *)

Section MapBoard.
Context (C : Type) `{Countable C} (Gr K E : Type).
Context (pc_ : string → C) (is_pass : C → bool) (dg : gmap C Z → Gr).
Context (init_ : Z → Position_ (gmap C Z) Gr K E).
Context (int_ : string → option Z) (float_ : string → option K).

Local Abbreviation MG := (map_go C Gr K E pc_ is_pass dg init_ int_ float_).

Lemma map_place_stone_commute (b : gmap C Z) (k1 k2 : Z) (c1 c2 : C) :
  c1 ≠ c2 →
  map_place_stone (map_place_stone b k1 c1) k2 c2
  = map_place_stone (map_place_stone b k2 c2) k1 c1.
Proof. intros Hne. unfold map_place_stone. by apply insert_insert_ne. Qed.

(** C9: on a board that maps points to colours, with [place_stone] setting
    one point, placing the black stones and then the white ones gives the
    same board as placing the white stones and then the black ones, when no
    black stone is on the point of a white stone.  The board that
    [handle_add_stones] returns is therefore also the one of the other
    order. *)
Theorem setup_stones_commute (pos : Position_ (gmap C Z) Gr K E) (node : Node)
    (b : gmap C Z) (black white : list string) :
  (∀ x y, x ∈ black → y ∈ white → pc_ x ≠ pc_ y) →
  add_white (G := MG) (add_black (G := MG) b black) white
  = add_black (G := MG) (add_white (G := MG) b white) black ∧
  (default [] (properties node !! "AB") = black →
   default [] (properties node !! "AW") = white →
   board (handle_add_stones (G := MG) pos node)
   = add_black (G := MG) (add_white (G := MG) (board pos) white) black).
Proof.
  intros Hne.
  assert (∀ b0 : gmap C Z,
    add_white (G := MG) (add_black (G := MG) b0 black) white
    = add_black (G := MG) (add_white (G := MG) b0 white) black) as Hswap.
  { intros b0. apply (add_white_add_black (G := MG)); [| done].
    intros. by apply map_place_stone_commute. }
  split; [apply Hswap |]. intros Hb Hw. unfold handle_add_stones.
  rewrite Hb, Hw. case_bool_decide as Hany; simpl; [apply Hswap |].
  destruct black, white; simpl; [done | | |]; exfalso; apply Hany; naive_solver.
Qed.

End MapBoard.

(** ** More on setup stones on a finite-map board *)

Section MapBoardStones.
Context (C : Type) `{Countable C} (Gr K E : Type).
Context (pc_ : string → C) (is_pass : C → bool) (dg : gmap C Z → Gr).
Context (init_ : Z → Position_ (gmap C Z) Gr K E).
Context (int_ : string → option Z) (float_ : string → option K).

Local Abbreviation MG := (map_go C Gr K E pc_ is_pass dg init_ int_ float_).

(** One loop: the points of the listed stones get the colour, the other
    points keep what they had. *)
Lemma place_stones_lookup (color : Z) (stones : list string) (b : gmap C Z) (c : C) :
  foldl (λ wb s, map_place_stone wb color (pc_ s)) b stones !! c
  = if decide (c ∈ pc_ <$> stones) then Some color else b !! c.
Proof.
  revert b. induction stones as [|s stones IH]; intros b; [done |].
  cbn [foldl]. rewrite IH, fmap_cons. unfold map_place_stone.
  destruct (decide (c ∈ pc_ <$> stones)) as [Hin | Hout].
  - rewrite decide_True; [done | by right].
  - destruct (decide (c = pc_ s)) as [-> | Hne].
    + rewrite decide_True by (by left). by rewrite lookup_insert_eq.
    + rewrite decide_False by (by intros [? | ?]%elem_of_cons).
      by rewrite lookup_insert_ne.
Qed.

(** What is on each point after [handle_add_stones]: white where a white
    stone was added (also when a black stone was added there, the white
    loop being the later one), black where only a black stone was added,
    and what was there before on every other point. *)
Theorem handle_add_stones_lookup (pos : Position_ (gmap C Z) Gr K E) (node : Node) (c : C) :
  board (handle_add_stones (G := MG) pos node) !! c =
    if decide (c ∈ pc_ <$> default [] (properties node !! "AW")) then Some (-1)
    else if decide (c ∈ pc_ <$> default [] (properties node !! "AB")) then Some 1
    else board pos !! c.
Proof.
  unfold handle_add_stones. case_bool_decide as Hany; simpl.
  - unfold add_white, add_black. simpl. by rewrite !place_stones_lookup.
  - destruct (default [] (properties node !! "AB")), (default [] (properties node !! "AW"));
      simpl; [done | exfalso; apply Hany; by right | exfalso; apply Hany; by left ..].
Qed.

(** The order of the stones inside one list does not matter: two lists of
    black stones (or of white stones) that are permutations of each other
    give the same board. *)
Theorem add_stones_permutation (b : gmap C Z) (l1 l2 : list string) :
  l1 ≡ₚ l2 →
  add_black (G := MG) b l1 = add_black (G := MG) b l2 ∧
  add_white (G := MG) b l1 = add_white (G := MG) b l2.
Proof.
  intros Hperm. unfold add_black, add_white. simpl.
  split; apply map_eq; intros c; rewrite !place_stones_lookup;
    by destruct (decide (c ∈ pc_ <$> l1)), (decide (c ∈ pc_ <$> l2));
      try done; exfalso; rewrite Hperm in *.
Qed.

End MapBoardStones.

(** ** Runs with the reference collaborators *)

Section Runs.
Import RefGo.

Lemma handle_play_stones_corrects_turn_witness :
  (∃ p', handle_play_stones after_aa black_bb = Ok (Some p') ∧ player1turn p' = false) ∧
  (∃ p', handle_play_stones start black_aa = Ok (Some p') ∧
         p' = replace_player1turn after_aa true).
Proof.
  destruct (handle_play_stones_corrects_turn (G := ref_go)) as [Hany Hbbw]. split.
  - apply (Hbbw after_aa black_aa black_bb white_cc "aa" "bb" "cc"
             (default after_aa (play_move after_aa (pc "bb"))) [] [] []);
      by vm_compute.
  - destruct (Hany start black_aa after_aa Black (Some "bb")) as (p' & Hp & -> & _);
      [by vm_compute | by vm_compute |].
    by exists (replace_player1turn after_aa (turn_of Black)).
Defined.

(** Without the correction the flag would say Black to move after the second
    Black move of [black_black_white]; the third record has White to move. *)
Example black_black_white_run :
  (play_move start (pc "aa") ≫= λ p, play_move p (pc "bb")) ≫= (λ p, Some (player1turn p))
  = Some true ∧
  match replay black_black_white with
  | Ok (rs, e) => (λ r, player1turn <$> position r) <$> rs
                  = [Some true; Some true; Some false; Some true] ∧ e = None
  | Raise _ => False
  end.
Proof. by vm_compute. Qed.

Lemma illegal_move_before_last_node_witness :
  handle_play_stones (handle_add_stones after_aa white_on_aa) white_on_aa
    = Raise AttributeError ∧
  walk PNone after_aa white_on_aa = ([], Some AttributeError).
Proof.
  apply (illegal_move_before_last_node (G := ref_go) PNone after_aa white_on_aa
           Black (Some "cc")); by vm_compute.
Defined.

(** The whole walk over [occupied]: two records, then the fault; the record
    of the node with the refused move is not among them. *)
Example occupied_run :
  match replay occupied with
  | Ok ([r0; r1], Some AttributeError) =>
      position r0 = Some start ∧ next_move r0 = Some "aa" ∧
      position r1 = Some after_aa ∧ next_move r1 = Some "aa"
  | _ => False
  end.
Proof. by vm_compute. Qed.

(** A refused move at the last node ends the walk as the loop intends. *)
Example refused_last_move_run :
  walk PNone after_aa (leaf [("W", ["aa"])])
  = ([mkPositionWithContext None None PNone], None).
Proof. by vm_compute. Qed.

(** The walk over [stones_next] stops with the [KeyError] of
    [get_next_move] before the node that adds a stone is reached. *)
Example stones_next_run : walk PNone start stones_next = ([], Some KeyError).
Proof. by vm_compute. Qed.

Lemma replay_two_nodes_witness :
  let p0 := replace_player1turn start true in
  replay two_nodes =
    Ok ([mkPositionWithContext (Some p0) (Some "cd") PNone;
         mkPositionWithContext (play_move p0 (pc "cd")) None PNone], None)
  ∧ board p0 = board (initial_state 9)
  ∧ (player1turn (initial_state 9) = true → p0 = start).
Proof.
  apply (replay_two_nodes (G := ref_go) two_nodes (leaf [("B", ["cd"])]) "cd" (Qmake 65 10));
    by vm_compute.
Defined.

(** The two positions of that run: the empty board, then the board with
    the one black stone at column c, row d. *)
Example two_nodes_boards :
  board start = ∅ ∧
  board <$> play_move (replace_player1turn start true) (pc "cd")
  = Some {[ Some (3%nat, 2%nat) := 1 ]}.
Proof. by vm_compute. Qed.

Lemma is_usable_iff_witness :
  is_usable (mkPositionWithContext (Some start) (Some "cd") (PSingle "B+R")) = true ∧
  is_usable (mkPositionWithContext (Some start) (Some "cd") (PSingle "Void")) ≠ true.
Proof.
  split.
  - apply (is_usable_iff (G := ref_go)). by vm_compute.
  - intros Hu. apply (is_usable_iff (G := ref_go)) in Hu as (_ & _ & Hv). by apply Hv.
Defined.

Lemma init_rejects_other_game_type_witness :
  init other_game = Raise AssertionError ∧ replay other_game = Raise AssertionError.
Proof.
  apply (init_rejects_other_game_type (G := ref_go) other_game "2" 2); by vm_compute.
Defined.

Lemma handle_add_stones_spec_witness :
  handle_add_stones start two_nodes = start ∧
  board (handle_add_stones start handicap) =
    foldl (λ b s, place_stone b (-1) (pc s))
      (foldl (λ b s, place_stone b 1 (pc s)) (board start) ["cc"; "gg"]) ["dd"] ∧
  groups (handle_add_stones start handicap) =
    deduce_groups
      (foldl (λ b s, place_stone b (-1) (pc s))
         (foldl (λ b s, place_stone b 1 (pc s)) (board start) ["cc"; "gg"]) ["dd"]) ∧
  komi (handle_add_stones start handicap) = komi start ∧
  player1turn (handle_add_stones start handicap) = player1turn start ∧
  extra (handle_add_stones start handicap) = extra start.
Proof.
  split.
  - by apply (handle_add_stones_spec (G := ref_go) start two_nodes).
  - destruct (handle_add_stones_spec (G := ref_go) start handicap) as [_ Hadded].
    apply (Hadded ["cc"; "gg"] ["dd"]); by vm_compute.
Defined.

(** The position that [handle_add_stones] makes of [start] at [handicap]:
    black stones at cc and gg, a white stone at dd, the groups of that
    board, and komi and turn as before. *)
Example handicap_position :
  handle_add_stones start handicap =
    mkPosition
      {[ Some (2, 2)%nat := 1; Some (6, 6)%nat := 1; Some (3, 3)%nat := -1 ]}
      ({[ Some (2, 2)%nat; Some (6, 6)%nat ]}, {[ Some (3, 3)%nat ]})
      (Qmake 65 10) true ().
Proof. by vm_compute. Qed.

Lemma pass_next_record_unusable_witness :
  (∃ c, get_next_move pass_next = Ok (Some c, None)) ∧
  (∃ p', walk PNone start pass_next
         = yield (mkPositionWithContext (Some p') None PNone)
                 (walk PNone p' (leaf [("W", [""])]))).
Proof.
  destruct (pass_next_record_unusable (G := ref_go) PNone start pass_next
              (leaf [("W", [""])])) as (Hc & Hw & _).
  - by vm_compute.
  - left. by exists [].
  - split; [done |]. apply (Hw after_aa). by vm_compute.
Defined.

Lemma setup_stones_commute_witness :
  add_white (add_black (board start) ["cc"; "gg"]) ["dd"]
  = add_black (add_white (board start) ["dd"]) ["cc"; "gg"] ∧
  board (handle_add_stones start handicap)
  = add_black (add_white (board start) ["dd"]) ["cc"; "gg"].
Proof.
  destruct (setup_stones_commute (option point) _ _ unit parse_sgf_coords
              (λ c, bool_decide (c = None)) ref_deduce_groups
              (λ _, mkPosition ∅ (∅, ∅) (Qmake 15 2) true ()) ref_int ref_float
              start handicap (board start) ["cc"; "gg"] ["dd"]) as [Hswap Hboard].
  - intros x y Hx%list_elem_of_In Hy%list_elem_of_In. simpl in Hx, Hy.
    destruct Hx as [<- | [<- | []]], Hy as [<- | []]; by vm_compute.
  - split; [exact Hswap | by apply Hboard].
Defined.

(** With a black and a white stone on one point the order does show: the
    stone placed last stays. *)
Example overlapping_setup_stones :
  add_white (add_black (board start) ["cc"]) ["cc"]
  ≠ add_black (add_white (board start) ["cc"]) ["cc"].
Proof.
  intros Heq. apply (f_equal (λ b : gmap (option point) Z, b !! pc "cc")) in Heq.
  by vm_compute in Heq.
Qed.

End Runs.

(** ** More runs with the reference collaborators *)

Section MoreRuns.
Import RefGo.

(** The wrapper that [init] makes of [two_nodes]. *)
Example init_two_nodes :
  init two_nodes = Ok (mkSgfWrapper two_nodes PNone (Qmake 65 10) 9).
Proof. by vm_compute. Qed.

Lemma handle_add_stones_groups_witness :
  groups (handle_add_stones start handicap)
  = deduce_groups (board (handle_add_stones start handicap)).
Proof. apply (handle_add_stones_groups (G := ref_go) start handicap). by vm_compute. Defined.

Lemma handle_play_stones_last_node_witness :
  handle_play_stones after_aa (leaf [("W", ["aa"])])
  = play_recorded after_aa (leaf [("W", ["aa"])]).
Proof. apply (handle_play_stones_last_node (G := ref_go)). reflexivity. Defined.

Lemma handle_play_stones_keeps_witness :
  let p' := replace_player1turn after_aa true in
  board p' = board after_aa ∧ groups p' = groups after_aa ∧
  komi p' = komi after_aa ∧ extra p' = extra after_aa.
Proof.
  apply (handle_play_stones_keeps (G := ref_go) start black_aa after_aa); by vm_compute.
Defined.

Lemma handle_play_stones_no_move_witness :
  let p' := replace_player1turn start true in
  p' = replace_player1turn start (player1turn p').
Proof.
  apply (handle_play_stones_no_move (G := ref_go) start two_nodes); by vm_compute.
Defined.

Lemma next_move_is_played_witness :
  ∃ raw, play_recorded after_aa black_bb = Ok (play_move after_aa (pc raw)) ∧
         Some "bb" = or_None raw ∧ item0 (properties black_bb) "B" = Ok raw.
Proof.
  apply (next_move_is_played (G := ref_go) black_aa black_bb Black (Some "bb") after_aa);
    by vm_compute.
Defined.

Lemma init_ok_iff_witness :
  init two_nodes = Ok (mkSgfWrapper two_nodes PNone (Qmake 65 10) 9).
Proof.
  apply (init_ok_iff (G := ref_go)). simpl.
  split; [exists "1"; by vm_compute |]. split; [exists "6.5"; by vm_compute |].
  split; [exists "9"; by vm_compute |]. split; [reflexivity | by vm_compute].
Defined.

Lemma init_missing_komi_or_size_witness :
  init (leaf [("SZ", ["9"])]) = Raise TypeError ∧
  init (leaf [("GM", ["1"]); ("KM", ["6.5"])]) = Raise TypeError.
Proof.
  split.
  - apply (init_missing_komi_or_size (G := ref_go) (leaf [("SZ", ["9"])]) "1");
      by vm_compute.
  - destruct (init_missing_komi_or_size (G := ref_go)
                (leaf [("GM", ["1"]); ("KM", ["6.5"])]) "1") as [_ Hsize];
      [by vm_compute | by vm_compute |].
    apply (Hsize "6.5" (Qmake 65 10)); by vm_compute.
Defined.

Lemma init_several_values_witness :
  init (leaf [("GM", ["1"; "1"]); ("SZ", ["9"]); ("KM", ["6.5"])]) = Raise TypeError.
Proof. apply (init_several_values (G := ref_go) _ "1" "1" []). by vm_compute. Defined.

Lemma walk_normal_end_witness :
  length (walk PNone start black_black_white).1 = length (main_line black_black_white) ∧
  ∃ r, last (walk PNone start black_black_white).1 = Some r ∧
       next_move r = None ∧ is_usable r = false.
Proof. apply (walk_normal_end (G := ref_go)). by vm_compute. Defined.

Lemma walk_fault_witness :
  (length (walk PNone start occupied).1 < length (main_line occupied))%nat ∧
  (AttributeError = KeyError ∨ AttributeError = IndexError ∨
   AttributeError = AttributeError).
Proof. apply (walk_fault (G := ref_go)). by vm_compute. Defined.

Lemma walk_well_formed_witness :
  (walk PNone start occupied).2 = None ∨
  (walk PNone start occupied).2 = Some AttributeError.
Proof.
  apply (walk_well_formed (G := ref_go)).
  - repeat apply Forall_cons_2; try apply Forall_nil_2;
      (split; [by vm_compute | by vm_compute]).
  - repeat apply Forall_cons_2; try apply Forall_nil_2.
    + right. by exists ["aa"].
    + left. by exists ["aa"].
    + right. by exists ["cc"].
Defined.

Lemma walk_turn_matches_next_witness :
  ∃ n p c, main_line black_black_white !! 2%nat = Some n ∧ next n = Some white_cc ∧
           Some (default start (play_move (replace_player1turn after_aa true) (pc "bb")))
           = Some p ∧
           get_next_move n = Ok (Some c, Some "cc") ∧ player1turn p = turn_of c.
Proof.
  apply (walk_turn_matches_next (G := ref_go) PNone start black_black_white 2
           (mkPositionWithContext
              (Some (default start (play_move (replace_player1turn after_aa true) (pc "bb"))))
              (Some "cc") PNone) white_cc); by vm_compute.
Defined.

Lemma get_main_branch_first_witness :
  ∃ p, Some (replace_player1turn start true) = Some p ∧ komi p = Qmake 65 10 ∧
       (properties two_nodes !! "AB" = None → properties two_nodes !! "AW" = None →
        board p = board (initial_state 19)).
Proof.
  apply (get_main_branch_first (G := ref_go) 19
           (mkSgfWrapper two_nodes PNone (Qmake 65 10) 9)
           (mkPositionWithContext (Some (replace_player1turn start true)) (Some "cd") PNone)
           [mkPositionWithContext (play_move (replace_player1turn start true) (pc "cd"))
              None PNone] None); by vm_compute.
Defined.

Lemma get_main_branch_stale_size_witness :
  9 = 9 ∧ 19 = 19 ∧
  ∃ p, Some (replace_player1turn start true) = Some p ∧
       board p = board (initial_state 19).
Proof.
  apply (get_main_branch_stale_size (G := ref_go) two_nodes
           (leaf [("SZ", ["19"]); ("KM", ["0.5"])]) 0
           (mkSgfWrapper two_nodes PNone (Qmake 65 10) 9)
           (mkSgfWrapper (leaf [("SZ", ["19"]); ("KM", ["0.5"])]) PNone (Qmake 5 10) 19)
           9 19
           (mkPositionWithContext (Some (replace_player1turn start true)) (Some "cd") PNone)
           [mkPositionWithContext (play_move (replace_player1turn start true) (pc "cd"))
              None PNone] None); by vm_compute.
Defined.

Lemma add_stones_permutation_witness :
  add_black (board start) ["cc"; "gg"] = add_black (board start) ["gg"; "cc"] ∧
  add_white (board start) ["cc"; "gg"] = add_white (board start) ["gg"; "cc"].
Proof.
  apply (add_stones_permutation (option point) _ _ unit parse_sgf_coords
           (λ c, bool_decide (c = None)) ref_deduce_groups
           (λ _, mkPosition ∅ (∅, ∅) (Qmake 15 2) true ()) ref_int ref_float).
  apply perm_swap.
Defined.

(** The lookup after [handle_add_stones], on a node that puts a black and
    a white stone on the same point: the white one stays. *)
Example overlapping_setup_lookup :
  board (handle_add_stones start (leaf [("AB", ["cc"; "dd"]); ("AW", ["cc"])])) !! pc "cc"
  = Some (-1) ∧
  board (handle_add_stones start (leaf [("AB", ["cc"; "dd"]); ("AW", ["cc"])])) !! pc "dd"
  = Some 1.
Proof. by vm_compute. Qed.

End MoreRuns.
